(** * Pending-transaction tracker of the bridge UI

    Shallow embedding of [packages/bridge-ui/src/store/transactions.ts]:
    the custom store [pendingTransactions] (a Svelte [writable] holding an
    array of transactions) and its method [add], which appends a
    transaction, asks the signer's provider to watch it, and completes a
    [Deferred] from the [then]/[catch] handlers of the watch.

    The JavaScript heap and event loop are made explicit:
    - the value of the writable, the [Deferred] objects and the promises
      returned by [waitForTransaction] live in a [World];
    - code runs in a state monad [M] over that world;
    - every observable effect (logging, publication of a new store value to
      the subscribers, a watch request, a call of [resolve] or [reject]) is
      appended to a chronological [trace];
    - the event loop is a list of operations ([Op]) run from the initial
      world: calls of [add], calls of the exported [set], and settlements of
      watch promises by the provider. *)

From Stdlib Require Import ZArith Lia.
From stdpp Require Import base list strings.

Local Open Scope string_scope.
Local Open Scope list_scope.

(** ** Data of the ethers library, as far as the store uses it *)

(** [Transaction]: the identifying hash and fields the tracker never reads. *)
Record Transaction := mkTransaction {
  hash : string;
  nonce : Z;
  data : string;
}.

(** [ethers.providers.TransactionReceipt]; [status] is optional in ethers. *)
Record TransactionReceipt := mkReceipt {
  transactionHash : string;
  blockNumber : Z;
  status : option Z;
}.

(** The reason a promise is rejected with is an arbitrary JavaScript value.
    The [catch] handler only reads [error?.code]: [Nullish] stands for
    [null]/[undefined], and [code] is [None] when the property is missing
    or is not a string. *)
Inductive JsError :=
  | Nullish
  | Thrown (code : option string) (msg : string).

(** [ethers.errors.TIMEOUT], the error code of ethers v5 for a timeout. *)
Definition TIMEOUT : string := "TIMEOUT".

(** Providers are external objects, known by an identifier. The signer is
    used only through [signer.provider], which [add] dereferences
    unconditionally. *)
Definition Provider := nat.
Record Signer := mkSigner { provider : Provider }.

(** [new Error(message, { cause })] *)
Inductive Cause :=
  | CauseReceipt (receipt : TransactionReceipt)
  | CauseError (error : JsError).

Record Error := mkError {
  message : string;
  cause : Cause;
}.

(** ** Heap objects *)

(** Modelled from the spec: the class [Deferred] of [utils/Deferred] is not
    part of the sources at hand. The spec describes it as "a
    single-resolution result cell whose completion is decoupled from its
    creation": a cell that is pending until the first [resolve] or [reject],
    and that later calls leave as it is. *)
Inductive DeferredState :=
  | Pending
  | Resolved (receipt : TransactionReceipt)
  | Rejected (err : Error).

(** Arguments of one [waitForTransaction(hash, confirms, timeout)] call. *)
Record WatchRequest := mkRequest {
  wr_provider : Provider;
  wr_hash : string;
  wr_confirms : Z;
  wr_timeout : Z;
}.

(** The variables the [then] and [catch] callbacks close over: the index
    saved at insertion and the deferred (by its address in the heap). *)
Record Closure := mkClosure {
  idxAppendedTransaction : nat;
  deferred : nat;
}.

(** A promise returned by [waitForTransaction], with the handlers chained
    on it. A promise settles at most once. *)
Record Watch := mkWatch {
  request : WatchRequest;
  captured : Closure;
  settled : bool;
}.

(** Observable effects, in the order they happen. *)
Inductive Event :=
  | EvLog (msg : string)
  | EvPublish (txs : list Transaction)
  | EvWatch (p : nat) (req : WatchRequest)
  | EvResolve (d : nat) (receipt : TransactionReceipt)
  | EvReject (d : nat) (err : Error).

Record World := mkWorld {
  pending : list Transaction;      (* value of the writable *)
  deferreds : list DeferredState;  (* Deferred objects, by address *)
  watches : list Watch;            (* watch promises, by address *)
  trace : list Event;              (* oldest event first *)
}.

Definition initial : World := mkWorld [] [] [] [].

(** ** The state monad *)

Definition M (A : Type) : Type := World -> A * World.

#[export] Instance M_ret : MRet M := fun A (a : A) w => (a, w).

#[export] Instance M_bind : MBind M :=
  fun A B (k : A -> M B) (m : M A) w => let (a, w') := m w in k a w'.

Definition exec {A} (m : M A) (w : World) : World := snd (m w).

Definition emit (e : Event) : M unit :=
  fun w => (tt, mkWorld (pending w) (deferreds w) (watches w) (trace w ++ [e])).

(** [log] of [utils/logger]: diagnostic output only, kept as an event. *)
Definition log (msg : string) : M unit := emit (EvLog msg).

(** ** The Svelte writable

    [set(new_value)] stores the value and runs the subscribers whenever
    [safe_not_equal(value, new_value)], which is always the case for arrays.
    Subscribers are observers: they receive the value and do nothing to the
    store. [update(fn)] is [set(fn(value))]. *)
Definition read_value : M (list Transaction) := fun w => (pending w, w).

Definition write_value (new_value : list Transaction) : M unit :=
  fun w => (tt, mkWorld new_value (deferreds w) (watches w) (trace w)).

Definition set (new_value : list Transaction) : M unit :=
  write_value new_value ;;
  emit (EvPublish new_value).

Definition update (fn : list Transaction -> M (list Transaction)) : M unit :=
  value ← read_value;
  new_value ← fn value;
  set new_value.

(** ** Deferred *)

(** Modelled from the spec: [new Deferred()] of [utils/Deferred] creates a
    result cell that is not completed yet; here it is allocated in the heap
    and known by its address. *)
Definition new_Deferred : M nat :=
  fun w => (length (deferreds w),
            mkWorld (pending w) (deferreds w ++ [Pending]) (watches w) (trace w)).

(** Modelled from the spec: the cell is "single-resolution", so that only a
    pending cell takes the state it is completed with. *)
Definition complete (d : nat) (s : DeferredState) : M unit :=
  fun w =>
    match deferreds w !! d with
    | Some Pending =>
        (tt, mkWorld (pending w) (<[d := s]> (deferreds w)) (watches w) (trace w))
    | _ => (tt, w)
    end.

(** Modelled from the spec: [deferred.resolve(receipt)] of [utils/Deferred],
    "resolved with a receipt on success". The call itself is recorded. *)
Definition resolve (d : nat) (receipt : TransactionReceipt) : M unit :=
  emit (EvResolve d receipt) ;; complete d (Resolved receipt).

(** Modelled from the spec: [deferred.reject(error)] of [utils/Deferred],
    "failed with a typed error otherwise". The call itself is recorded. *)
Definition reject (d : nat) (err : Error) : M unit :=
  emit (EvReject d err) ;; complete d (Rejected err).

(** ** Arrays *)

(** [a.splice(start, deleteCount)] for [start >= 0], on the copy it is
    applied to: the elements before [start], then those from
    [start + deleteCount] on. With [start >= a.length] nothing is removed. *)
Definition splice {A} (start deleteCount : nat) (a : list A) : list A :=
  take start a ++ drop (start + deleteCount) a.

(** ** The provider *)

(** [provider.waitForTransaction(hash, confirms, timeout).then(..).catch(..)]:
    the request goes to the provider and the returned promise is kept, not
    settled, together with what its handlers captured. *)
Definition new_watch (req : WatchRequest) (env : Closure) : M nat :=
  fun w => (length (watches w),
            mkWorld (pending w) (deferreds w)
              (watches w ++ [mkWatch req env false]) (trace w)).

Definition waitForTransaction (prov : Provider) (h : string)
    (confirms timeout : Z) (env : Closure) : M unit :=
  let req := mkRequest prov h confirms timeout in
  p ← new_watch req env;
  emit (EvWatch p req).

(** ** [pendingTransactions.add] *)

(** [receipt.status === 1] *)
Definition status_is_1 (receipt : TransactionReceipt) : bool :=
  match status receipt with
  | Some 1%Z => true
  | _ => false
  end.

(** [error?.code === ethers.errors.TIMEOUT] *)
Definition code_is_TIMEOUT (error : JsError) : bool :=
  match error with
  | Nullish => false
  | Thrown None _ => false
  | Thrown (Some c) _ => String.eqb c TIMEOUT
  end.

(** The callback given to [then]. *)
Definition onFulfilled (env : Closure) (receipt : TransactionReceipt) : M unit :=
  log "Transaction mined with receipt" ;;
  update (fun txs =>
    let copyPendingTransactions := splice (idxAppendedTransaction env) 1 txs in
    mret copyPendingTransactions) ;;
  if status_is_1 receipt then
    log "Transaction successful" ;;
    resolve (deferred env) receipt
  else
    reject (deferred env) (mkError "Transaction failed" (CauseReceipt receipt)).

(** The callback given to [catch]. *)
Definition onRejected (env : Closure) (error : JsError) : M unit :=
  if code_is_TIMEOUT error then
    reject (deferred env)
      (mkError "timeout while waiting for transaction to be mined" (CauseError error))
  else
    reject (deferred env) (mkError "transaction failed" (CauseError error)).

(** [add(tx, signer)]; the result is the address of the deferred whose
    promise is returned. *)
Definition add (tx : Transaction) (signer : Signer) : M nat :=
  d ← new_Deferred;
  update (fun txs =>
    let newPendingTransactions := txs ++ [tx] in
    let idxAppendedTransaction := length newPendingTransactions - 1 in
    waitForTransaction (provider signer) (hash tx) 1 (5 * 60 * 1000)
      (mkClosure idxAppendedTransaction d) ;;
    mret newPendingTransactions) ;;
  mret d.

(** ** The event loop *)

(** What the provider settles a watch promise with. *)
Inductive Outcome :=
  | Fulfilled (receipt : TransactionReceipt)
  | Failed (error : JsError).

Definition settle (wt : Watch) : Watch :=
  mkWatch (request wt) (captured wt) true.

Definition mark_settled (p : nat) : M unit :=
  fun w =>
    (tt, mkWorld (pending w) (deferreds w) (alter settle p (watches w))
           (trace w)).

Definition read_watch (p : nat) : M (option Watch) :=
  fun w => (watches w !! p, w).

(** Settlement of watch promise [p]. A promise that is already settled, or
    an address that holds none, is left alone. Otherwise the chain
    [.then(onFulfilled).catch(onRejected)] runs: [onFulfilled] on a receipt
    (none of its steps throws, so [catch] has nothing to handle after it),
    [onRejected] on a rejection. *)
Definition deliver (p : nat) (o : Outcome) : M unit :=
  found ← read_watch p;
  match found with
  | Some wt =>
      if settled wt then mret tt
      else
        mark_settled p ;;
        match o with
        | Fulfilled receipt => onFulfilled (captured wt) receipt
        | Failed error => onRejected (captured wt) error
        end
  | None => mret tt
  end.

Inductive Op :=
  | OpAdd (tx : Transaction) (signer : Signer)
  | OpSet (txs : list Transaction)
  | OpDeliver (p : nat) (o : Outcome).

Definition step (w : World) (op : Op) : World :=
  match op with
  | OpAdd tx signer => exec (add tx signer) w
  | OpSet txs => exec (set txs) w
  | OpDeliver p o => exec (deliver p o) w
  end.

Definition run (ops : list Op) (w : World) : World := foldl step w ops.

(** Calls of [resolve] or [reject] on deferred [d] in a trace. *)
Definition completes (d : nat) (e : Event) : bool :=
  match e with
  | EvResolve d' _ | EvReject d' _ => Nat.eqb d d'
  | _ => false
  end.

Definition completions (d : nat) (t : list Event) : nat :=
  length (List.filter (completes d) t).

Definition is_watch (e : Event) : bool :=
  match e with
  | EvWatch _ _ => true
  | _ => false
  end.

Definition watch_requests (t : list Event) : list Event := List.filter is_watch t.

(** ** The effect of a settlement, in closed form

    These functions only serve to state [deliver_unfold] below, which
    proves that [deliver] computes them. *)

Definition settle_cell (d : nat) (s : DeferredState)
    (ds : list DeferredState) : list DeferredState :=
  match ds !! d with
  | Some Pending => <[d := s]> ds
  | _ => ds
  end.

Definition failure_of_receipt (receipt : TransactionReceipt) : Error :=
  mkError "Transaction failed" (CauseReceipt receipt).

Definition failure_of_error (error : JsError) : Error :=
  if code_is_TIMEOUT error
  then mkError "timeout while waiting for transaction to be mined" (CauseError error)
  else mkError "transaction failed" (CauseError error).

Definition verdict (o : Outcome) : DeferredState :=
  match o with
  | Fulfilled receipt =>
      if status_is_1 receipt then Resolved receipt
      else Rejected (failure_of_receipt receipt)
  | Failed error => Rejected (failure_of_error error)
  end.

Definition handler_value (env : Closure) (o : Outcome)
    (txs : list Transaction) : list Transaction :=
  match o with
  | Fulfilled _ => splice (idxAppendedTransaction env) 1 txs
  | Failed _ => txs
  end.

Definition handler_events (env : Closure) (o : Outcome)
    (txs : list Transaction) : list Event :=
  match o with
  | Fulfilled receipt =>
      [EvLog "Transaction mined with receipt";
       EvPublish (splice (idxAppendedTransaction env) 1 txs)] ++
      (if status_is_1 receipt
       then [EvLog "Transaction successful"; EvResolve (deferred env) receipt]
       else [EvReject (deferred env) (failure_of_receipt receipt)])
  | Failed error => [EvReject (deferred env) (failure_of_error error)]
  end.

(** ** The invariant of the event loop

    Every call of [add] allocates one deferred and one watch promise, at the
    same address of their heaps, and the handlers of watch [p] are the only
    code that holds deferred [p]. *)

Record consistent (w : World) : Prop := {
  cons_length : length (deferreds w) = length (watches w);
  cons_owner : forall p wt,
    watches w !! p = Some wt -> deferred (captured wt) = p;
  cons_pending : forall p wt,
    watches w !! p = Some wt -> settled wt = false ->
    deferreds w !! p = Some Pending;
  cons_once : forall p wt,
    watches w !! p = Some wt ->
    completions p (trace w) = if settled wt then 1 else 0;
  cons_fresh : forall d,
    length (deferreds w) <= d -> completions d (trace w) = 0;
}.

(** A watch promise stays where it is, keeps its request and its handlers,
    and never goes back from settled to unsettled. *)
Definition persists (wt wt' : Watch) : Prop :=
  request wt' = request wt /\ captured wt' = captured wt /\
  (settled wt = true -> settled wt' = true).

(** ** Submissions

    One call [add tx signer], placed in a run of the event loop: the
    operations [before] it, and the operations [between] the call and the
    moment the provider settles the watch of this call. *)

Record Submission := mkSubmission {
  before : list Op;
  sub_tx : Transaction;
  sub_signer : Signer;
  between : list Op;
}.

Definition at_call (s : Submission) : World := run (before s) initial.

(** The deferred whose promise the call returns. *)
Definition future (s : Submission) : nat :=
  fst (add (sub_tx s) (sub_signer s) (at_call s)).

(** The watch promise the call creates. *)
Definition watch_of (s : Submission) : nat := length (watches (at_call s)).

(** The index the call saves for its handlers. *)
Definition recorded_index (s : Submission) : nat := length (pending (at_call s)).

Definition after_call (s : Submission) : World :=
  exec (add (sub_tx s) (sub_signer s)) (at_call s).

Definition at_settlement (s : Submission) : World :=
  run (between s) (after_call s).

(** The provider has not settled the watch of this call yet. *)
Definition unsettled (s : Submission) : bool :=
  match watches (at_settlement s) !! watch_of s with
  | Some wt => negb (settled wt)
  | None => false
  end.

Definition settlement (s : Submission) (o : Outcome) : World :=
  exec (deliver (watch_of s) o) (at_settlement s).

(** ** The two parts of the [then] callback

    The callback first removes from the store, then completes the deferred. *)

(** The first part: the log and the [update] that splices the saved index
    out of a copy of the array. *)
Definition remove_saved_index (env : Closure) : M unit :=
  log "Transaction mined with receipt" ;;
  update (fun txs =>
    let copyPendingTransactions := splice (idxAppendedTransaction env) 1 txs in
    mret copyPendingTransactions).

(** The second part: the [if] on [receipt.status] that resolves or rejects
    the deferred. *)
Definition complete_future (env : Closure) (receipt : TransactionReceipt) : M unit :=
  if status_is_1 receipt then
    log "Transaction successful" ;;
    resolve (deferred env) receipt
  else
    reject (deferred env) (mkError "Transaction failed" (CauseReceipt receipt)).

(** The world in the middle of the [then] callback of a submission: the
    watch has settled with a receipt and the first part of the callback is
    done; the second part has not started. *)
Definition removed (s : Submission) : World :=
  exec (remove_saved_index (mkClosure (recorded_index s) (future s)))
    (exec (mark_settled (watch_of s)) (at_settlement s)).

(** ** Counting requests *)

Definition is_add (op : Op) : bool :=
  match op with
  | OpAdd _ _ => true
  | _ => false
  end.

Definition adds (ops : list Op) : nat := length (List.filter is_add ops).

(** ** Sample data *)

Definition tx_A : Transaction := mkTransaction "0xA" 0 "".
Definition tx_B : Transaction := mkTransaction "0xB" 1 "".
Definition tx_C : Transaction := mkTransaction "0xC" 2 "".
Definition wallet : Signer := mkSigner 0.
Definition mined (h : string) (st : Z) : TransactionReceipt :=
  mkReceipt h 100 (Some st).

(** [tx_B] is submitted while [tx_A] is pending, and [tx_A] is mined first. *)
Definition second_of_two (st : Z) : Submission :=
  mkSubmission [OpAdd tx_A wallet] tx_B wallet
    [OpDeliver 0 (Fulfilled (mined "0xA" st))].

(** The only submission of a run, with nothing else happening. *)
Definition alone (tx : Transaction) : Submission :=
  mkSubmission [] tx wallet [].

(** The only submission; the caller empties the store before the watch
    settles. *)
Definition emptied (tx : Transaction) : Submission :=
  mkSubmission [] tx wallet [OpSet []].

(** [tx_B] is submitted between [tx_A] and [tx_C], and [tx_A] is mined
    first. *)
Definition middle_of_three : Submission :=
  mkSubmission [OpAdd tx_A wallet] tx_B wallet
    [OpAdd tx_C wallet; OpDeliver 0 (Fulfilled (mined "0xA" 1))].

(** ** Further notions for runs *)

(** Whether a cell of the deferred heap exists and is still pending. *)
Definition is_pending_cell (c : option DeferredState) : bool :=
  match c with
  | Some Pending => true
  | _ => false
  end.

(** The values the writable has published to its subscribers, oldest first,
    and the value a subscriber holds: the last one published, or the initial
    value [[]] of [writable<Transaction[]>([])]. *)
Definition publications (t : list Event) : list (list Transaction) :=
  flat_map (fun e => match e with EvPublish txs => [txs] | _ => [] end) t.

Definition last_published (t : list Event) : list Transaction :=
  default [] (last (publications t)).

(** The transactions handed to the store by its callers, through [add] or
    through [set]. *)
Definition handed_in (ops : list Op) : list Transaction :=
  flat_map (fun op =>
    match op with
    | OpAdd tx _ => [tx]
    | OpSet txs => txs
    | OpDeliver _ _ => []
    end) ops.

(** Operations that leave the entries up to the one of watch [a] alone:
    calls of [add], rejections of any watch, and receipts for watches
    created after [a]. A call of [set] or a receipt for [a] or for an
    earlier watch is not among them. *)
Definition later_only (a : nat) (op : Op) : bool :=
  match op with
  | OpAdd _ _ => true
  | OpSet _ => false
  | OpDeliver _ (Failed _) => true
  | OpDeliver p (Fulfilled _) => Nat.ltb a p
  end.

(** The same, or any settlement addressed to watch [a] itself. *)
Definition later_or_self (a : nat) (op : Op) : bool :=
  later_only a op ||
  match op with
  | OpDeliver p _ => Nat.eqb p a
  | _ => false
  end.

(** The entries up to index [idx] are [kept], and every watch created after
    [a] has saved an index beyond [idx]. *)
Definition guarded (a idx : nat) (kept : list Transaction) (w : World) : Prop :=
  take (S idx) (pending w) = kept /\
  length kept = S idx /\
  forall q wt,
    a < q -> watches w !! q = Some wt ->
    idx < idxAppendedTransaction (captured wt).

(** Every settled watch has completed its deferred. *)
Definition completed (w : World) : Prop :=
  forall p wt,
    watches w !! p = Some wt -> settled wt = true ->
    is_pending_cell (deferreds w !! p) = false.

(** * Properties *)

(** ** What one call or one settlement does to the world *)

Section Equations.

Variable w : World.

Lemma add_unfold tx signer :
  add tx signer w =
    (length (deferreds w),
     mkWorld (pending w ++ [tx])
       (deferreds w ++ [Pending])
       (watches w ++
          [mkWatch (mkRequest (provider signer) (hash tx) 1 300000)
             (mkClosure (length (pending w)) (length (deferreds w))) false])
       (trace w ++
          [EvWatch (length (watches w))
             (mkRequest (provider signer) (hash tx) 1 300000);
           EvPublish (pending w ++ [tx])])).
Proof.
  destruct w as [txs ds ws t]. cbv [add update set waitForTransaction new_watch
    new_Deferred read_value write_value emit mbind M_bind mret M_ret]. simpl.
  rewrite length_app, Nat.add_sub. simpl. rewrite <- app_assoc. reflexivity.
Qed.

Lemma set_unfold txs :
  exec (set txs) w =
    mkWorld txs (deferreds w) (watches w) (trace w ++ [EvPublish txs]).
Proof. reflexivity. Qed.

Lemma deliver_missing p o :
  watches w !! p = None -> exec (deliver p o) w = w.
Proof.
  intros Hp. cbv [exec deliver read_watch mbind M_bind mret M_ret].
  rewrite Hp. reflexivity.
Qed.

Lemma deliver_settled p o wt :
  watches w !! p = Some wt -> settled wt = true -> exec (deliver p o) w = w.
Proof.
  intros Hp Hs. cbv [exec deliver read_watch mbind M_bind mret M_ret].
  rewrite Hp, Hs. reflexivity.
Qed.

Lemma deliver_unfold p o wt :
  watches w !! p = Some wt -> settled wt = false ->
  exec (deliver p o) w =
    mkWorld (handler_value (captured wt) o (pending w))
      (settle_cell (deferred (captured wt)) (verdict o) (deferreds w))
      (alter settle p (watches w))
      (trace w ++ handler_events (captured wt) o (pending w)).
Proof.
  intros Hp Hs. destruct w as [txs ds ws t]. simpl in Hp.
  cbv [exec deliver read_watch mbind M_bind mret M_ret]. simpl.
  rewrite Hp, Hs. unfold settle_cell.
  destruct o as [r | e]; simpl.
  - cbv [onFulfilled onRejected update set resolve reject complete log emit
      mark_settled read_value write_value mbind M_bind mret M_ret]. simpl.
    destruct (status_is_1 r); simpl;
      destruct (ds !! deferred (captured wt)) as [[ | | ] | ]; simpl;
      rewrite <- ?app_assoc; reflexivity.
  - cbv [onFulfilled onRejected update set resolve reject complete log emit
      mark_settled read_value write_value mbind M_bind mret M_ret
      failure_of_error]. simpl.
    destruct (code_is_TIMEOUT e); simpl;
      destruct (ds !! deferred (captured wt)) as [[ | | ] | ]; simpl;
      reflexivity.
Qed.

End Equations.

(** ** Arrays and traces *)

Lemma splice_one_delete {A} (i : nat) (a : list A) : splice i 1 a = delete i a.
Proof.
  unfold splice. revert i. induction a as [ | x a IH]; intros [ | i]; simpl.
  - reflexivity.
  - reflexivity.
  - rewrite drop_0. reflexivity.
  - f_equal. apply IH.
Qed.

Lemma splice_out_of_range {A} (i n : nat) (a : list A) :
  length a <= i -> splice i n a = a.
Proof.
  intros Hi. unfold splice.
  rewrite take_ge by lia. rewrite drop_ge by lia. apply app_nil_r.
Qed.

Lemma splice_one_length {A} (i : nat) (a : list A) :
  i < length a -> S (length (splice i 1 a)) = length a.
Proof.
  intros Hi. unfold splice.
  rewrite length_app, length_take, length_drop. lia.
Qed.

Lemma completions_app d t1 t2 :
  completions d (t1 ++ t2) = completions d t1 + completions d t2.
Proof. unfold completions. rewrite List.filter_app, length_app. reflexivity. Qed.

Lemma completions_handler_events d env o txs :
  completions d (handler_events env o txs) =
    if Nat.eqb d (deferred env) then 1 else 0.
Proof.
  destruct o as [r | e]; simpl.
  - destruct (status_is_1 r); unfold completions; simpl;
      destruct (Nat.eqb d (deferred env)); reflexivity.
  - unfold completions; simpl. destruct (Nat.eqb d (deferred env)); reflexivity.
Qed.

(** ** The invariant holds in every run *)

Lemma consistent_initial : consistent initial.
Proof. split; simpl; intros; try done. Qed.

Lemma consistent_add w tx signer :
  consistent w -> consistent (exec (add tx signer) w).
Proof.
  intros [Hlen Hown Hpend Honce Hfresh].
  unfold exec. rewrite add_unfold. simpl.
  split; simpl.
  - rewrite !length_app. simpl. lia.
  - intros p wt Hp. apply lookup_app_Some in Hp as [Hp | [Hge Hp]].
    + eauto.
    + apply list_lookup_singleton_Some in Hp as [Hz <-]. simpl. lia.
  - intros p wt Hp Hs. apply lookup_app_Some in Hp as [Hp | [Hge Hp]].
    + rewrite lookup_app_l by (rewrite Hlen; eapply lookup_lt_Some; eauto). eauto.
    + apply list_lookup_singleton_Some in Hp as [Hz _].
      assert (p = length (deferreds w)) as -> by lia.
      rewrite lookup_app_r by lia. rewrite Nat.sub_diag. reflexivity.
  - intros p wt Hp. rewrite completions_app, Nat.add_0_r.
    apply lookup_app_Some in Hp as [Hp | [Hge Hp]].
    + eauto.
    + apply list_lookup_singleton_Some in Hp as [Hz <-]. simpl.
      apply Hfresh. lia.
  - intros d Hd. rewrite length_app in Hd. simpl in Hd.
    rewrite completions_app, Nat.add_0_r. apply Hfresh. lia.
Qed.

Lemma consistent_set w txs : consistent w -> consistent (exec (set txs) w).
Proof.
  intros [Hlen Hown Hpend Honce Hfresh]. rewrite set_unfold.
  split; simpl; try done.
  - intros p wt Hp. rewrite completions_app, Nat.add_0_r. eauto.
  - intros d Hd. rewrite completions_app, Nat.add_0_r. eauto.
Qed.

Lemma settle_cell_length d s ds : length (settle_cell d s ds) = length ds.
Proof.
  unfold settle_cell. destruct (ds !! d) as [[ | | ] | ]; try reflexivity.
  apply length_insert.
Qed.

Lemma settle_cell_other d s ds q :
  q <> d -> settle_cell d s ds !! q = ds !! q.
Proof.
  intros Hq. unfold settle_cell.
  destruct (ds !! d) as [[ | | ] | ]; try reflexivity.
  apply list_lookup_insert_ne. congruence.
Qed.

Lemma consistent_deliver w p o :
  consistent w -> consistent (exec (deliver p o) w).
Proof.
  intros Hw. destruct (watches w !! p) as [wt | ] eqn:Hp.
  2: { rewrite deliver_missing; done. }
  destruct (settled wt) eqn:Hs.
  { erewrite deliver_settled; eauto. }
  rewrite (deliver_unfold w p o wt Hp Hs).
  destruct Hw as [Hlen Hown Hpend Honce Hfresh].
  assert (deferred (captured wt) = p) as Hd by eauto. rewrite Hd.
  split; simpl.
  - rewrite settle_cell_length, length_alter. exact Hlen.
  - intros q wq Hq. destruct (decide (q = p)) as [-> | Hne].
    + rewrite list_lookup_alter_eq, Hp in Hq. simpl in Hq.
      injection Hq as <-. simpl. exact Hd.
    + rewrite list_lookup_alter_ne in Hq by congruence. eauto.
  - intros q wq Hq Hsq. destruct (decide (q = p)) as [-> | Hne].
    + rewrite list_lookup_alter_eq, Hp in Hq. simpl in Hq.
      injection Hq as <-. discriminate Hsq.
    + rewrite list_lookup_alter_ne in Hq by congruence.
      rewrite settle_cell_other by exact Hne. eauto.
  - intros q wq Hq. rewrite completions_app, completions_handler_events, Hd.
    destruct (decide (q = p)) as [-> | Hne].
    + rewrite list_lookup_alter_eq, Hp in Hq. simpl in Hq.
      injection Hq as <-. simpl. rewrite Nat.eqb_refl.
      rewrite (Honce p wt Hp), Hs. reflexivity.
    + rewrite list_lookup_alter_ne in Hq by congruence.
      apply Nat.eqb_neq in Hne. rewrite Hne, Nat.add_0_r. eauto.
  - intros d Hge. rewrite settle_cell_length in Hge.
    rewrite completions_app, completions_handler_events, Hd.
    assert (p < length (watches w)) by (eapply lookup_lt_Some; eauto).
    assert (d <> p) as Hne by lia.
    apply Nat.eqb_neq in Hne. rewrite Hne, Nat.add_0_r. apply Hfresh. exact Hge.
Qed.

Lemma consistent_step w op : consistent w -> consistent (step w op).
Proof.
  destruct op; simpl;
    auto using consistent_add, consistent_set, consistent_deliver.
Qed.

Lemma consistent_run_from ops w : consistent w -> consistent (run ops w).
Proof.
  revert w. induction ops as [ | op ops IH]; intros w Hw; simpl.
  - exact Hw.
  - apply IH, consistent_step, Hw.
Qed.

Lemma consistent_run ops : consistent (run ops initial).
Proof. apply consistent_run_from, consistent_initial. Qed.

(** ** Watches persist *)

Lemma persists_refl wt : persists wt wt.
Proof. repeat split; auto. Qed.

Lemma persists_trans wt1 wt2 wt3 :
  persists wt1 wt2 -> persists wt2 wt3 -> persists wt1 wt3.
Proof.
  intros (Hr1 & Hc1 & Hs1) (Hr2 & Hc2 & Hs2).
  repeat split; [congruence | congruence | auto].
Qed.

Lemma watch_step w op p wt :
  watches w !! p = Some wt ->
  exists wt', watches (step w op) !! p = Some wt' /\ persists wt wt'.
Proof.
  intros Hp. destruct op as [tx signer | txs | q o]; unfold step.
  - unfold exec. rewrite add_unfold. simpl. exists wt.
    split; [ | apply persists_refl].
    apply lookup_app_l_Some. exact Hp.
  - rewrite set_unfold. simpl. exists wt. split; [exact Hp | apply persists_refl].
  - destruct (watches w !! q) as [wq | ] eqn:Hq.
    2: { rewrite deliver_missing by exact Hq. eauto using persists_refl. }
    destruct (settled wq) eqn:Hs.
    { erewrite deliver_settled by eauto. eauto using persists_refl. }
    rewrite (deliver_unfold w q o wq Hq Hs). simpl.
    destruct (decide (p = q)) as [-> | Hne].
    + rewrite list_lookup_alter_eq, Hp. simpl. eexists. split; [reflexivity | ].
      repeat split; reflexivity.
    + rewrite list_lookup_alter_ne by congruence.
      eauto using persists_refl.
Qed.

Lemma watch_run ops w p wt :
  watches w !! p = Some wt ->
  exists wt', watches (run ops w) !! p = Some wt' /\ persists wt wt'.
Proof.
  revert w wt. induction ops as [ | op ops IH]; intros w wt Hp; simpl.
  - eauto using persists_refl.
  - destruct (watch_step w op p wt Hp) as (wt1 & Hp1 & H1).
    destruct (IH _ _ Hp1) as (wt2 & Hp2 & H2).
    eauto using persists_trans.
Qed.

(** ** Submissions in a run *)

Lemma consistent_at_call s : consistent (at_call s).
Proof. apply consistent_run. Qed.

Lemma consistent_at_settlement s : consistent (at_settlement s).
Proof.
  apply consistent_run_from, consistent_add, consistent_at_call.
Qed.

Lemma future_watch_of s : future s = watch_of s.
Proof.
  unfold future, watch_of. rewrite add_unfold. simpl.
  apply cons_length, consistent_at_call.
Qed.

(** At the settlement the watch of the call still holds the handlers that
    the call attached, with the index and the deferred of the call. *)
Lemma watch_at_settlement s :
  exists wt,
    watches (at_settlement s) !! watch_of s = Some wt /\
    captured wt = mkClosure (recorded_index s) (future s) /\
    request wt =
      mkRequest (provider (sub_signer s)) (hash (sub_tx s)) 1 300000.
Proof.
  unfold at_settlement.
  edestruct (watch_run (between s) (after_call s) (watch_of s))
    as (wt & Hwt & Hr & Hc & _).
  { unfold after_call, exec. rewrite add_unfold. simpl.
    unfold watch_of. rewrite lookup_app_r by lia.
    rewrite Nat.sub_diag. reflexivity. }
  exists wt. split; [exact Hwt | ]. simpl in Hr, Hc.
  split; [ | exact Hr]. rewrite Hc. unfold recorded_index, future.
  rewrite add_unfold. reflexivity.
Qed.

(** The closed form of the first settlement of a submission. *)
Lemma settlement_unfold s o :
  unsettled s = true ->
  settlement s o =
    mkWorld
      (handler_value (mkClosure (recorded_index s) (future s)) o
         (pending (at_settlement s)))
      (<[future s := verdict o]> (deferreds (at_settlement s)))
      (alter settle (watch_of s) (watches (at_settlement s)))
      (trace (at_settlement s) ++
         handler_events (mkClosure (recorded_index s) (future s)) o
           (pending (at_settlement s))).
Proof.
  intros Hu. destruct (watch_at_settlement s) as (wt & Hwt & Hc & _).
  unfold unsettled in Hu. rewrite Hwt in Hu.
  apply negb_true_iff in Hu.
  unfold settlement. rewrite (deliver_unfold _ _ o wt Hwt Hu), Hc. simpl.
  f_equal. unfold settle_cell.
  rewrite future_watch_of.
  rewrite (cons_pending _ (consistent_at_settlement s) _ _ Hwt Hu).
  reflexivity.
Qed.

Lemma unsettled_pending s :
  unsettled s = true -> deferreds (at_settlement s) !! future s = Some Pending.
Proof.
  intros Hu. destruct (watch_at_settlement s) as (wt & Hwt & _).
  unfold unsettled in Hu. rewrite Hwt in Hu. apply negb_true_iff in Hu.
  rewrite future_watch_of.
  exact (cons_pending _ (consistent_at_settlement s) _ _ Hwt Hu).
Qed.

Lemma settlement_future s o :
  unsettled s = true ->
  deferreds (settlement s o) !! future s = Some (verdict o).
Proof.
  intros Hu. rewrite (settlement_unfold s o Hu). simpl.
  apply list_lookup_insert_eq.
  eapply lookup_lt_Some, unsettled_pending, Hu.
Qed.

Lemma code_is_TIMEOUT_spec e :
  code_is_TIMEOUT e = true <-> exists m, e = Thrown (Some TIMEOUT) m.
Proof.
  split.
  - destruct e as [ | [c | ] m]; simpl; try discriminate.
    intros Hc. apply String.eqb_eq in Hc. subst c. eauto.
  - intros [m ->]. reflexivity.
Qed.

(** When the saved index is still inside the array at the settlement, a
    receipt removes the element at that index: the array gets one shorter,
    and the future gets the verdict for the receipt. *)
Lemma confirmation_in_range s r :
  unsettled s = true ->
  recorded_index s < length (pending (at_settlement s)) ->
  pending (settlement s (Fulfilled r)) =
    delete (recorded_index s) (pending (at_settlement s)) /\
  S (length (pending (settlement s (Fulfilled r)))) =
    length (pending (at_settlement s)) /\
  deferreds (settlement s (Fulfilled r)) !! future s =
    Some (verdict (Fulfilled r)).
Proof.
  intros Hu Hlt. split; [ | split].
  - rewrite (settlement_unfold s _ Hu). simpl. apply splice_one_delete.
  - rewrite (settlement_unfold s _ Hu). simpl. apply splice_one_length, Hlt.
  - apply settlement_future, Hu.
Qed.

(** With nothing between the call and the settlement, the saved index is the
    last one and the receipt removes the submitted transaction. *)
Lemma confirmation_undisturbed w tx signer r :
  pending (exec (deliver (length (watches w)) (Fulfilled r))
             (exec (add tx signer) w)) = pending w.
Proof.
  unfold exec at 2. rewrite add_unfold.
  set (wt := mkWatch (mkRequest (provider signer) (hash tx) 1 300000)
               (mkClosure (length (pending w)) (length (deferreds w))) false).
  rewrite (deliver_unfold _ _ _ wt); simpl.
  - unfold splice. rewrite take_app_length.
    rewrite drop_ge by (rewrite length_app; simpl; lia). apply app_nil_r.
  - rewrite lookup_app_r by lia. rewrite Nat.sub_diag. reflexivity.
  - reflexivity.
Qed.

(** ** Watch requests of a run *)

Lemma watch_requests_app t1 t2 :
  watch_requests (t1 ++ t2) = watch_requests t1 ++ watch_requests t2.
Proof. apply List.filter_app. Qed.

Lemma watch_requests_handler_events env o txs :
  watch_requests (handler_events env o txs) = [].
Proof.
  destruct o as [r | e]; simpl; [destruct (status_is_1 r) | ]; reflexivity.
Qed.

Lemma watch_requests_add w tx signer :
  watch_requests (trace (exec (add tx signer) w)) =
    watch_requests (trace w) ++
      [EvWatch (length (watches w))
         (mkRequest (provider signer) (hash tx) 1 (5 * 60 * 1000))].
Proof.
  unfold exec. rewrite add_unfold. simpl. apply watch_requests_app.
Qed.

Lemma watch_requests_set w txs :
  watch_requests (trace (exec (set txs) w)) = watch_requests (trace w).
Proof.
  rewrite set_unfold. simpl. rewrite watch_requests_app. apply app_nil_r.
Qed.

Lemma watch_requests_deliver w p o :
  watch_requests (trace (exec (deliver p o) w)) = watch_requests (trace w).
Proof.
  destruct (watches w !! p) as [wt | ] eqn:Hp.
  2: { rewrite deliver_missing; done. }
  destruct (settled wt) eqn:Hs.
  { erewrite deliver_settled; eauto. }
  rewrite (deliver_unfold w p o wt Hp Hs). simpl.
  rewrite watch_requests_app, watch_requests_handler_events. apply app_nil_r.
Qed.

Lemma watch_requests_run ops w :
  length (watch_requests (trace (run ops w))) =
    length (watch_requests (trace w)) + adds ops.
Proof.
  revert w. induction ops as [ | op ops IH]; intros w.
  - simpl. unfold adds. simpl. lia.
  - change (run (op :: ops) w) with (run ops (step w op)). rewrite IH.
    destruct op as [tx signer | txs | p o]; unfold step, adds.
    + rewrite watch_requests_add, length_app. simpl. lia.
    + rewrite watch_requests_set. simpl. lia.
    + rewrite watch_requests_deliver. simpl. lia.
Qed.

(** * The claims *)

(** C2: a call [add tx signer] makes the pending collection exactly one
    longer within the call itself: [tx] is appended at the end, the index
    saved for the handlers is the new last index, the new value is already
    published to the subscribers, and nothing is completed yet (the new
    watch is not settled, the new deferred is pending, and the call emits no
    resolve or reject). *)
Theorem add_appends_synchronously (w : World) (tx : Transaction) (signer : Signer) :
  let d := fst (add tx signer w) in
  let w' := exec (add tx signer) w in
  let last := length (pending w') - 1 in
  pending w' = pending w ++ [tx] /\
  length (pending w') = S (length (pending w)) /\
  pending w' !! last = Some tx /\
  watches w' =
    watches w ++
      [mkWatch (mkRequest (provider signer) (hash tx) 1 300000)
         (mkClosure last d) false] /\
  deferreds w' = deferreds w ++ [Pending] /\
  deferreds w' !! d = Some Pending /\
  trace w' =
    trace w ++
      [EvWatch (length (watches w))
         (mkRequest (provider signer) (hash tx) 1 300000);
       EvPublish (pending w ++ [tx])].
Proof.
  unfold exec. rewrite add_unfold. simpl.
  rewrite length_app, Nat.add_sub. simpl.
  repeat split.
  - lia.
  - rewrite lookup_app_r by lia. rewrite Nat.sub_diag. reflexivity.
  - rewrite lookup_app_r by lia. rewrite Nat.sub_diag. reflexivity.
Qed.

(** C9: a call [add tx signer] issues exactly one watch request, for the
    hash of [tx], one confirmation and 5 * 60 * 1000 milliseconds; a
    settlement or a [set] issues none, so that a run has as many requests
    as calls of [add]: nothing is retried. *)
Theorem one_watch_request_per_add :
  (forall w tx signer,
     watch_requests (trace (exec (add tx signer) w)) =
       watch_requests (trace w) ++
         [EvWatch (length (watches w))
            (mkRequest (provider signer) (hash tx) 1 (5 * 60 * 1000))]) /\
  (forall w p o,
     watch_requests (trace (exec (deliver p o) w)) = watch_requests (trace w)) /\
  (forall w txs,
     watch_requests (trace (exec (set txs) w)) = watch_requests (trace w)) /\
  (forall ops,
     length (watch_requests (trace (run ops initial))) = adds ops).
Proof.
  split; [ | split; [ | split]].
  - apply watch_requests_add.
  - apply watch_requests_deliver.
  - apply watch_requests_set.
  - intros ops. rewrite watch_requests_run. reflexivity.
Qed.

(** C6: when the watch is rejected, with a timeout or with any other error,
    the handler leaves the pending collection as it is; in particular the
    entry that the call appended is still there. *)
Theorem watch_failure_keeps_collection :
  (forall env e w, pending (exec (onRejected env e) w) = pending w) /\
  (forall w p e, pending (exec (deliver p (Failed e)) w) = pending w) /\
  (forall s e, pending (settlement s (Failed e)) = pending (at_settlement s)) /\
  (forall w tx signer e,
     pending (exec (deliver (length (watches w)) (Failed e))
                (exec (add tx signer) w)) = pending w ++ [tx]).
Proof.
  assert (forall w p e, pending (exec (deliver p (Failed e)) w) = pending w)
    as Hdeliver.
  { intros w p e. destruct (watches w !! p) as [wt | ] eqn:Hp.
    2: { rewrite deliver_missing; done. }
    destruct (settled wt) eqn:Hs.
    { erewrite deliver_settled; eauto. }
    rewrite (deliver_unfold w p _ wt Hp Hs). reflexivity. }
  split; [ | split; [ | split]].
  - intros env e [txs ds ws t].
    cbv [exec onRejected reject complete emit mbind M_bind]. simpl.
    destruct (code_is_TIMEOUT e); simpl;
      destruct (ds !! deferred env) as [[ | | ] | ]; reflexivity.
  - exact Hdeliver.
  - intros s e. apply Hdeliver.
  - intros w tx signer e. rewrite Hdeliver.
    unfold exec. rewrite add_unfold. reflexivity.
Qed.

(** C4: when the watch of a submission is rejected with an error whose code
    is [ethers.errors.TIMEOUT], the returned future, pending until then, is
    rejected with the timeout error whose cause is that error; with any
    other error it is rejected with the error "transaction failed" whose
    cause is that error. *)
Theorem watch_failure_rejects (s : Submission) (e : JsError) :
  unsettled s = true ->
  (code_is_TIMEOUT e = true <-> exists m, e = Thrown (Some TIMEOUT) m) /\
  deferreds (at_settlement s) !! future s = Some Pending /\
  deferreds (settlement s (Failed e)) !! future s =
    Some (Rejected
            (mkError
               (if code_is_TIMEOUT e
                then "timeout while waiting for transaction to be mined"
                else "transaction failed")
               (CauseError e))) /\
  trace (settlement s (Failed e)) =
    trace (at_settlement s) ++
      [EvReject (future s)
         (mkError
            (if code_is_TIMEOUT e
             then "timeout while waiting for transaction to be mined"
             else "transaction failed")
            (CauseError e))].
Proof.
  intros Hu. split; [apply code_is_TIMEOUT_spec | ].
  split; [apply unsettled_pending, Hu | ].
  split.
  - rewrite (settlement_future s _ Hu). simpl. unfold failure_of_error.
    destruct (code_is_TIMEOUT e); reflexivity.
  - rewrite (settlement_unfold s _ Hu). simpl. unfold failure_of_error.
    destruct (code_is_TIMEOUT e); reflexivity.
Qed.

Lemma watch_failure_rejects_witness :
  unsettled (alone tx_A) = true /\
  deferreds (settlement (alone tx_A) (Failed (Thrown (Some "TIMEOUT") "timeout")))
    !! future (alone tx_A) =
    Some (Rejected
            (mkError "timeout while waiting for transaction to be mined"
               (CauseError (Thrown (Some "TIMEOUT") "timeout")))) /\
  deferreds (settlement (alone tx_A) (Failed Nullish)) !! future (alone tx_A) =
    Some (Rejected (mkError "transaction failed" (CauseError Nullish))).
Proof.
  split; [reflexivity | ]. split.
  - exact (proj1 (proj2 (proj2
      (watch_failure_rejects (alone tx_A) (Thrown (Some "TIMEOUT") "timeout")
         eq_refl)))).
  - exact (proj1 (proj2 (proj2
      (watch_failure_rejects (alone tx_A) Nullish eq_refl)))).
Defined.

(** C5: whatever the provider settles the watch of a submission with (a
    receipt with status 1, a receipt with another status, a timeout error or
    another error), the handlers call exactly one of [resolve] and [reject]
    on the returned future: none was called before the settlement, one has
    been called after it, and no later operation calls another. *)
Theorem future_completed_exactly_once
    (s : Submission) (o : Outcome) (after : list Op) :
  unsettled s = true ->
  completions (future s) (trace (at_settlement s)) = 0 /\
  completions (future s) (trace (settlement s o)) = 1 /\
  completions (future s) (trace (run after (settlement s o))) = 1.
Proof.
  intros Hu.
  assert (completions (future s) (trace (at_settlement s)) = 0) as H0.
  { destruct (watch_at_settlement s) as (wt & Hwt & _).
    unfold unsettled in Hu. rewrite Hwt in Hu. apply negb_true_iff in Hu.
    rewrite future_watch_of.
    rewrite (cons_once _ (consistent_at_settlement s) _ _ Hwt), Hu.
    reflexivity. }
  split; [exact H0 | ]. split.
  - rewrite (settlement_unfold s o Hu). simpl.
    rewrite completions_app, completions_handler_events, H0. simpl.
    rewrite Nat.eqb_refl. reflexivity.
  - assert (consistent (run after (settlement s o))) as Hc.
    { apply consistent_run_from, consistent_deliver, consistent_at_settlement. }
    destruct (watch_at_settlement s) as (wt & Hwt & _).
    assert (watches (settlement s o) !! watch_of s = Some (settle wt)) as Hs.
    { rewrite (settlement_unfold s o Hu). simpl.
      rewrite list_lookup_alter_eq, Hwt. reflexivity. }
    destruct (watch_run after _ _ _ Hs) as (wt' & Hwt' & _ & _ & Hset).
    rewrite future_watch_of.
    rewrite (cons_once _ Hc _ _ Hwt'), Hset; reflexivity.
Qed.

Lemma future_completed_exactly_once_witness :
  unsettled (second_of_two 1) = true /\
  completions (future (second_of_two 1))
    (trace (run [OpDeliver 1 (Failed Nullish); OpAdd tx_C wallet]
              (settlement (second_of_two 1) (Fulfilled (mined "0xB" 0))))) = 1.
Proof.
  split; [reflexivity | ].
  exact (proj2 (proj2
    (future_completed_exactly_once (second_of_two 1)
       (Fulfilled (mined "0xB" 0))
       [OpDeliver 1 (Failed Nullish); OpAdd tx_C wallet] eq_refl))).
Defined.

Lemma unsettled_no_completion s :
  unsettled s = true -> completions (future s) (trace (at_settlement s)) = 0.
Proof.
  intros Hu. destruct (watch_at_settlement s) as (wt & Hwt & _).
  unfold unsettled in Hu. rewrite Hwt in Hu. apply negb_true_iff in Hu.
  rewrite future_watch_of.
  rewrite (cons_once _ (consistent_at_settlement s) _ _ Hwt), Hu.
  reflexivity.
Qed.

Lemma onFulfilled_two_parts env receipt :
  onFulfilled env receipt =
    (remove_saved_index env ;; complete_future env receipt).
Proof. reflexivity. Qed.

Lemma remove_saved_index_unfold env w :
  exec (remove_saved_index env) w =
    mkWorld (splice (idxAppendedTransaction env) 1 (pending w))
      (deferreds w) (watches w)
      (trace w ++
         [EvLog "Transaction mined with receipt";
          EvPublish (splice (idxAppendedTransaction env) 1 (pending w))]).
Proof.
  destruct w as [txs ds ws t].
  cbv [exec remove_saved_index update set log emit read_value write_value
    mbind M_bind mret M_ret]. simpl.
  rewrite <- app_assoc. reflexivity.
Qed.

Lemma complete_future_unfold env receipt w :
  exec (complete_future env receipt) w =
    mkWorld (pending w)
      (settle_cell (deferred env) (verdict (Fulfilled receipt)) (deferreds w))
      (watches w)
      (trace w ++
         (if status_is_1 receipt
          then [EvLog "Transaction successful"; EvResolve (deferred env) receipt]
          else [EvReject (deferred env)
                  (mkError "Transaction failed" (CauseReceipt receipt))])).
Proof.
  destruct w as [txs ds ws t].
  cbv [exec complete_future resolve reject complete log emit
    mbind M_bind mret M_ret settle_cell verdict failure_of_receipt]. simpl.
  destruct (status_is_1 receipt); simpl;
    destruct (ds !! deferred env) as [[ | | ] | ]; simpl;
    rewrite <- ?app_assoc; reflexivity.
Qed.

Lemma settlement_two_parts s r :
  unsettled s = true ->
  settlement s (Fulfilled r) =
    exec (complete_future (mkClosure (recorded_index s) (future s)) r)
      (removed s).
Proof.
  intros Hu. destruct (watch_at_settlement s) as (wt & Hwt & Hc & _).
  unfold unsettled in Hu. rewrite Hwt in Hu. apply negb_true_iff in Hu.
  unfold settlement, removed.
  cbv [exec deliver read_watch mbind M_bind]. simpl.
  rewrite Hwt, Hu, Hc. reflexivity.
Qed.

(** C8: when the watch of a submission resolves with a receipt, the store is
    changed before the future is completed. The [then] callback is its
    removing part followed by its completing part. In any world the removing
    part writes the collection with the saved index spliced out, publishes
    it, and touches no deferred; the completing part makes the one call of
    resolve or reject and leaves the store as it is. So in the middle of the
    callback the store already holds the spliced collection while the future
    of the submission is still pending and uncompleted, and the settlement
    is the completing part run from there: in its events the publication of
    the removal comes before the resolve or reject, which is the last
    event. *)
Theorem removal_precedes_completion (s : Submission) (r : TransactionReceipt) :
  unsettled s = true ->
  let removal :=
    EvPublish (splice (recorded_index s) 1 (pending (at_settlement s))) in
  let completion :=
    if status_is_1 r
    then [EvLog "Transaction successful"; EvResolve (future s) r]
    else [EvReject (future s) (mkError "Transaction failed" (CauseReceipt r))] in
  (forall env receipt,
     onFulfilled env receipt =
       (remove_saved_index env ;; complete_future env receipt)) /\
  (forall env w,
     pending (exec (remove_saved_index env) w) =
       splice (idxAppendedTransaction env) 1 (pending w) /\
     deferreds (exec (remove_saved_index env) w) = deferreds w /\
     trace (exec (remove_saved_index env) w) =
       trace w ++
         [EvLog "Transaction mined with receipt";
          EvPublish (splice (idxAppendedTransaction env) 1 (pending w))]) /\
  (forall env receipt w,
     pending (exec (complete_future env receipt) w) = pending w /\
     completions (deferred env) (trace (exec (complete_future env receipt) w)) =
       S (completions (deferred env) (trace w))) /\
  pending (removed s) =
    splice (recorded_index s) 1 (pending (at_settlement s)) /\
  deferreds (removed s) !! future s = Some Pending /\
  completions (future s) (trace (removed s)) = 0 /\
  trace (removed s) =
    (trace (at_settlement s) ++ [EvLog "Transaction mined with receipt"]) ++
    [removal] /\
  settlement s (Fulfilled r) =
    exec (complete_future (mkClosure (recorded_index s) (future s)) r)
      (removed s) /\
  pending (settlement s (Fulfilled r)) = pending (removed s) /\
  deferreds (settlement s (Fulfilled r)) !! future s =
    Some (if status_is_1 r then Resolved r
          else Rejected (mkError "Transaction failed" (CauseReceipt r))) /\
  trace (settlement s (Fulfilled r)) =
    (trace (at_settlement s) ++ [EvLog "Transaction mined with receipt"]) ++
    [removal] ++ completion /\
  completions (future s)
    (trace (at_settlement s) ++ [EvLog "Transaction mined with receipt"]) = 0 /\
  completions (future s) completion = 1 /\
  pending (settlement s (Fulfilled r)) =
    splice (recorded_index s) 1 (pending (at_settlement s)).
Proof.
  intros Hu removal completion.
  pose proof (unsettled_no_completion s Hu) as H0.
  assert (removed s =
            mkWorld (splice (recorded_index s) 1 (pending (at_settlement s)))
              (deferreds (at_settlement s))
              (alter settle (watch_of s) (watches (at_settlement s)))
              (trace (at_settlement s) ++
                 [EvLog "Transaction mined with receipt"; removal])) as Hmid.
  { unfold removed. rewrite remove_saved_index_unfold. reflexivity. }
  split; [exact onFulfilled_two_parts | ].
  split.
  { intros env w. rewrite remove_saved_index_unfold. auto. }
  split.
  { intros env receipt w. rewrite complete_future_unfold. simpl.
    split; [reflexivity | ]. rewrite completions_app. unfold completions at 2.
    destruct (status_is_1 receipt); simpl; rewrite Nat.eqb_refl; simpl; lia. }
  split; [rewrite Hmid; reflexivity | ].
  split; [rewrite Hmid; apply unsettled_pending, Hu | ].
  split.
  { rewrite Hmid. simpl. rewrite completions_app, H0. reflexivity. }
  split; [rewrite Hmid; simpl; rewrite <- app_assoc; reflexivity | ].
  split; [apply settlement_two_parts, Hu | ].
  split.
  { rewrite (settlement_two_parts s r Hu), complete_future_unfold.
    reflexivity. }
  split.
  { rewrite (settlement_future s _ Hu). simpl.
    destruct (status_is_1 r); reflexivity. }
  split.
  { rewrite (settlement_unfold s _ Hu). simpl.
    rewrite <- app_assoc. reflexivity. }
  split; [rewrite completions_app, H0; reflexivity | ].
  split.
  { unfold completion, completions.
    destruct (status_is_1 r); simpl; rewrite Nat.eqb_refl; reflexivity. }
  rewrite (settlement_unfold s _ Hu). reflexivity.
Qed.

Lemma removal_precedes_completion_witness :
  unsettled (second_of_two 1) = true /\
  pending (at_settlement (second_of_two 1)) = [tx_B] /\
  pending (removed (second_of_two 1)) = [tx_B] /\
  deferreds (removed (second_of_two 1)) !! future (second_of_two 1) =
    Some Pending /\
  unsettled middle_of_three = true /\
  pending (at_settlement middle_of_three) = [tx_B; tx_C] /\
  pending (removed middle_of_three) = [tx_B] /\
  deferreds (removed middle_of_three) !! future middle_of_three =
    Some Pending /\
  deferreds (settlement middle_of_three (Fulfilled (mined "0xB" 1)))
    !! future middle_of_three = Some (Resolved (mined "0xB" 1)).
Proof.
  pose proof (removal_precedes_completion (second_of_two 1) (mined "0xB" 1)
                eq_refl) as (_ & _ & _ & Hp2 & Hd2 & _).
  pose proof (removal_precedes_completion middle_of_three (mined "0xB" 1)
                eq_refl) as (_ & _ & _ & Hp3 & Hd3 & _ & _ & _ & _ & Hf3 & _).
  split; [reflexivity | ]. split; [reflexivity | ].
  split; [exact Hp2 | ]. split; [exact Hd2 | ].
  split; [reflexivity | ]. split; [reflexivity | ].
  split; [exact Hp3 | ]. split; [exact Hd3 | exact Hf3].
Defined.

(** C10: if the saved index is at or beyond the current length of the
    collection when the watch resolves with a receipt, the splice removes
    nothing: the collection and its length stay as they are, the handler
    still runs to its end, and the future is resolved (status 1) or rejected
    (any other status) all the same. *)
Theorem stale_index_removes_nothing (s : Submission) (r : TransactionReceipt) :
  unsettled s = true ->
  length (pending (at_settlement s)) <= recorded_index s ->
  pending (settlement s (Fulfilled r)) = pending (at_settlement s) /\
  length (pending (settlement s (Fulfilled r))) =
    length (pending (at_settlement s)) /\
  deferreds (settlement s (Fulfilled r)) !! future s =
    Some (if status_is_1 r then Resolved r
          else Rejected (mkError "Transaction failed" (CauseReceipt r))) /\
  completions (future s) (trace (settlement s (Fulfilled r))) = 1.
Proof.
  intros Hu Hge.
  assert (pending (settlement s (Fulfilled r)) = pending (at_settlement s))
    as Hsame.
  { rewrite (settlement_unfold s _ Hu). simpl.
    apply splice_out_of_range, Hge. }
  split; [exact Hsame | ]. split; [rewrite Hsame; reflexivity | ]. split.
  - rewrite (settlement_future s _ Hu). simpl.
    destruct (status_is_1 r); reflexivity.
  - apply (future_completed_exactly_once s (Fulfilled r) [] Hu).
Qed.

Lemma stale_index_removes_nothing_witness :
  unsettled (emptied tx_A) = true /\
  length (pending (at_settlement (emptied tx_A))) <=
    recorded_index (emptied tx_A) /\
  pending (settlement (emptied tx_A) (Fulfilled (mined "0xA" 1))) =
    pending (at_settlement (emptied tx_A)) /\
  deferreds (settlement (emptied tx_A) (Fulfilled (mined "0xA" 1)))
    !! future (emptied tx_A) = Some (Resolved (mined "0xA" 1)).
Proof.
  assert (length (pending (at_settlement (emptied tx_A))) <=
            recorded_index (emptied tx_A)) as Hge by (vm_compute; lia).
  split; [reflexivity | ]. split; [exact Hge | ].
  destruct (stale_index_removes_nothing (emptied tx_A) (mined "0xA" 1)
              eq_refl Hge) as (Hp & _ & Hd & _).
  split; [exact Hp | exact Hd].
Defined.

(** C7: the [then] handler removes by position, whatever the hashes: it
    deletes the element at the index saved by the call, which pointed to
    the submitted transaction when it was saved. So a run exists in which
    another removal happens between the call and its settlement (an earlier
    transaction is mined), and the element that the settlement removes is
    not the submitted transaction, which stays in the collection. *)
Theorem removal_is_by_recorded_index :
  (forall env r w,
     pending (exec (onFulfilled env r) w) =
       delete (idxAppendedTransaction env) (pending w)) /\
  (forall s,
     exists wt,
       watches (at_settlement s) !! watch_of s = Some wt /\
       captured wt = mkClosure (length (pending (at_call s))) (future s)) /\
  (exists s r removed,
     unsettled s = true /\
     between s = [OpAdd tx_C wallet; OpDeliver 0 (Fulfilled (mined "0xA" 1))] /\
     pending (after_call s) !! recorded_index s = Some (sub_tx s) /\
     pending (at_settlement s) !! recorded_index s = Some removed /\
     hash removed <> hash (sub_tx s) /\
     pending (settlement s (Fulfilled r)) =
       delete (recorded_index s) (pending (at_settlement s)) /\
     sub_tx s ∈ pending (settlement s (Fulfilled r)) /\
     removed ∉ pending (settlement s (Fulfilled r))).
Proof.
  split; [ | split].
  - intros env r [txs ds ws t].
    rewrite <- splice_one_delete.
    cbv [exec onFulfilled update set resolve reject complete log emit
      read_value write_value mbind M_bind mret M_ret]. simpl.
    destruct (status_is_1 r); simpl;
      destruct (ds !! deferred env) as [[ | | ] | ]; reflexivity.
  - intros s. destruct (watch_at_settlement s) as (wt & Hwt & Hc & _).
    exists wt. split; [exact Hwt | exact Hc].
  - exists middle_of_three, (mined "0xB" 1), tx_C.
    split; [reflexivity | ]. split; [reflexivity | ].
    split; [reflexivity | ]. split; [reflexivity | ].
    split; [discriminate | ]. split; [reflexivity | ].
    change (pending (settlement middle_of_three (Fulfilled (mined "0xB" 1))))
      with [tx_B].
    split.
    + apply list_elem_of_singleton. reflexivity.
    + intros Hin. apply list_elem_of_singleton in Hin. discriminate Hin.
Qed.

(** C1: the run in which [tx_B] is submitted while [tx_A] is pending and
    both are mined in that order. The watch of [tx_B] resolves with a
    receipt of status 1 and the future is resolved with it, but the saved
    index 1 is past the end of the collection [[tx_B]]: nothing is removed,
    the length stays 1 and [tx_B] stays pending. *)
Theorem second_success_is_never_removed :
  let s := second_of_two 1 in
  let r := mined "0xB" 1 in
  unsettled s = true /\
  status_is_1 r = true /\
  recorded_index s = 1 /\
  pending (at_settlement s) = [tx_B] /\
  pending (settlement s (Fulfilled r)) = [tx_B] /\
  length (pending (settlement s (Fulfilled r))) =
    length (pending (at_settlement s)) /\
  deferreds (settlement s (Fulfilled r)) !! future s = Some (Resolved r).
Proof. repeat split. Qed.

(** C3: the same run with receipts of status 0. The future of [tx_B] is
    rejected with the error "Transaction failed" whose cause is the receipt,
    but nothing is removed: the length stays 1 and [tx_B] stays pending. *)
Theorem second_failure_is_never_removed :
  let s := second_of_two 0 in
  let r := mined "0xB" 0 in
  unsettled s = true /\
  status_is_1 r = false /\
  recorded_index s = 1 /\
  pending (at_settlement s) = [tx_B] /\
  pending (settlement s (Fulfilled r)) = [tx_B] /\
  length (pending (settlement s (Fulfilled r))) =
    length (pending (at_settlement s)) /\
  deferreds (settlement s (Fulfilled r)) !! future s =
    Some (Rejected (mkError "Transaction failed" (CauseReceipt r))).
Proof. repeat split. Qed.

(** * Further properties of the store *)

(** ** Helper lemmas *)

Lemma deliver_pending_cases w p o :
  pending (exec (deliver p o) w) = pending w \/
  exists wt,
    watches w !! p = Some wt /\ settled wt = false /\
    pending (exec (deliver p o) w) =
      delete (idxAppendedTransaction (captured wt)) (pending w).
Proof.
  destruct (watches w !! p) as [wt | ] eqn:Hp.
  2: { left. rewrite deliver_missing; done. }
  destruct (settled wt) eqn:Hs.
  { left. erewrite deliver_settled; eauto. }
  rewrite (deliver_unfold w p o wt Hp Hs). simpl.
  destruct o as [r | e]; simpl.
  - right. exists wt. rewrite splice_one_delete. auto.
  - left. reflexivity.
Qed.

Lemma deliver_watch_inv w p o q wq :
  watches (exec (deliver p o) w) !! q = Some wq ->
  exists wt, watches w !! q = Some wt /\ captured wq = captured wt.
Proof.
  destruct (watches w !! p) as [wt | ] eqn:Hp.
  2: { rewrite deliver_missing by done. eauto. }
  destruct (settled wt) eqn:Hs.
  { erewrite deliver_settled by eauto. eauto. }
  rewrite (deliver_unfold w p o wt Hp Hs). simpl.
  destruct (decide (q = p)) as [-> | Hne].
  - rewrite list_lookup_alter_eq, Hp. simpl. intros [= <-]. eauto.
  - rewrite list_lookup_alter_ne by congruence. eauto.
Qed.

Lemma completed_cell_step w op d c :
  deferreds w !! d = Some c -> c <> Pending ->
  deferreds (step w op) !! d = Some c.
Proof.
  intros Hd Hc. destruct op as [tx signer | txs | p o]; unfold step.
  - unfold exec. rewrite add_unfold. simpl. apply lookup_app_l_Some, Hd.
  - rewrite set_unfold. exact Hd.
  - destruct (watches w !! p) as [wt | ] eqn:Hp.
    2: { rewrite deliver_missing; done. }
    destruct (settled wt) eqn:Hs.
    { erewrite deliver_settled; eauto. }
    rewrite (deliver_unfold w p o wt Hp Hs). simpl.
    destruct (decide (d = deferred (captured wt))) as [-> | Hne].
    + unfold settle_cell. rewrite Hd. destruct c; [congruence | exact Hd ..].
    + rewrite settle_cell_other by exact Hne. exact Hd.
Qed.

Lemma completed_cell_run ops w d c :
  deferreds w !! d = Some c -> c <> Pending ->
  deferreds (run ops w) !! d = Some c.
Proof.
  revert w. induction ops as [ | op ops IH]; intros w Hd Hc.
  - exact Hd.
  - apply IH; [ | exact Hc]. apply completed_cell_step; assumption.
Qed.

Lemma verdict_not_pending o : verdict o <> Pending.
Proof.
  destruct o as [r | e]; simpl; [destruct (status_is_1 r) | ]; discriminate.
Qed.

(** ** Removal in the undisturbed and in the in-range case *)

(** X1: submitting a transaction and receiving its receipt, with nothing in
    between, gives back the collection as it was before the call, whatever
    the status of the receipt and whatever the collection held. *)
Theorem add_then_receipt_restores (w : World) (tx : Transaction)
    (signer : Signer) (r : TransactionReceipt) :
  let p := length (watches w) in
  pending (exec (add tx signer) w) = pending w ++ [tx] /\
  pending (exec (deliver p (Fulfilled r)) (exec (add tx signer) w)) = pending w.
Proof.
  split.
  - unfold exec. rewrite add_unfold. reflexivity.
  - apply confirmation_undisturbed.
Qed.

(** X2: when the watch of a submission resolves with a receipt while the
    saved index is still inside the collection, exactly the element at that
    index is deleted: the collection gets one shorter, the elements before
    and after it keep their places relative to each other. *)
Theorem receipt_deletes_at_saved_index (s : Submission) (r : TransactionReceipt) :
  unsettled s = true ->
  recorded_index s < length (pending (at_settlement s)) ->
  pending (settlement s (Fulfilled r)) =
    take (recorded_index s) (pending (at_settlement s)) ++
    drop (S (recorded_index s)) (pending (at_settlement s)) /\
  S (length (pending (settlement s (Fulfilled r)))) =
    length (pending (at_settlement s)).
Proof.
  intros Hu Hlt.
  destruct (confirmation_in_range s r Hu Hlt) as (Hdel & Hlen & _).
  split; [ | exact Hlen]. rewrite Hdel. apply delete_take_drop.
Qed.

Lemma receipt_deletes_at_saved_index_witness :
  unsettled middle_of_three = true /\
  recorded_index middle_of_three < length (pending (at_settlement middle_of_three)) /\
  S (length (pending (settlement middle_of_three (Fulfilled (mined "0xB" 0))))) =
    length (pending (at_settlement middle_of_three)).
Proof.
  assert (recorded_index middle_of_three <
            length (pending (at_settlement middle_of_three))) as Hlt
    by (vm_compute; lia).
  split; [reflexivity | ]. split; [exact Hlt | ].
  exact (proj2 (receipt_deletes_at_saved_index middle_of_three
                  (mined "0xB" 0) eq_refl Hlt)).
Defined.

Lemma settlement_keeps_order_aux w p o :
  pending (exec (deliver p o) w) `sublist_of` pending w.
Proof.
  destruct (deliver_pending_cases w p o) as [-> | (wt & _ & _ & ->)].
  - reflexivity.
  - apply sublist_delete.
Qed.

(** X4: a settlement never adds to the collection and never reorders it: the
    collection after it is a sublist of the collection before it, with at
    most one element less. *)
Theorem settlement_keeps_order (w : World) (p : nat) (o : Outcome) :
  pending (exec (deliver p o) w) `sublist_of` pending w /\
  length (pending w) <= S (length (pending (exec (deliver p o) w))).
Proof.
  destruct (deliver_pending_cases w p o) as [-> | (wt & _ & _ & ->)].
  - split; [reflexivity | lia].
  - split; [apply sublist_delete | ].
    rewrite <- splice_one_delete.
    destruct (decide (idxAppendedTransaction (captured wt) < length (pending w)))
      as [Hlt | Hge].
    + rewrite (splice_one_length _ _ Hlt). lia.
    + rewrite splice_out_of_range by lia. lia.
Qed.

(** ** Futures *)

(** X5: the handlers of a submission complete the future of that submission
    only: a settlement leaves every other deferred as it was. *)
Theorem settlement_spares_other_futures
    (s : Submission) (o : Outcome) (q : nat) :
  q <> future s ->
  deferreds (settlement s o) !! q = deferreds (at_settlement s) !! q.
Proof.
  intros Hq. unfold settlement.
  destruct (watch_at_settlement s) as (wt & Hwt & Hc & _).
  destruct (settled wt) eqn:Hs.
  { erewrite deliver_settled; eauto. }
  rewrite (deliver_unfold _ _ o wt Hwt Hs). simpl.
  rewrite Hc. simpl. apply settle_cell_other, Hq.
Qed.

Lemma settlement_spares_other_futures_witness :
  0 <> future (second_of_two 1) /\
  deferreds (settlement (second_of_two 1) (Failed Nullish)) !! 0 =
    deferreds (at_settlement (second_of_two 1)) !! 0.
Proof.
  assert (0 <> future (second_of_two 1)) as Hne by (vm_compute; lia).
  split; [exact Hne | ].
  exact (settlement_spares_other_futures (second_of_two 1) (Failed Nullish) 0 Hne).
Defined.

(** X6: the outcome reported through the future of a submission is final:
    whatever operations follow the settlement (further submissions, calls of
    [set], settlements of this or of other watches), the future keeps the
    receipt it was resolved with or the error it was rejected with. *)
Theorem outcome_is_final (s : Submission) (o : Outcome) (after : list Op) :
  unsettled s = true ->
  deferreds (run after (settlement s o)) !! future s =
    Some match o with
         | Fulfilled r =>
             if status_is_1 r then Resolved r
             else Rejected (mkError "Transaction failed" (CauseReceipt r))
         | Failed e =>
             Rejected
               (mkError
                  (if code_is_TIMEOUT e
                   then "timeout while waiting for transaction to be mined"
                   else "transaction failed")
                  (CauseError e))
         end.
Proof.
  intros Hu.
  assert (deferreds (run after (settlement s o)) !! future s = Some (verdict o))
    as ->.
  { apply completed_cell_run; [ | apply verdict_not_pending].
    apply settlement_future, Hu. }
  destruct o as [r | e]; simpl; [reflexivity | ].
  unfold failure_of_error. destruct (code_is_TIMEOUT e); reflexivity.
Qed.

Lemma outcome_is_final_witness :
  unsettled (alone tx_A) = true /\
  deferreds (run [OpDeliver 0 (Failed Nullish); OpSet []; OpAdd tx_B wallet;
                  OpDeliver 1 (Fulfilled (mined "0xB" 0))]
               (settlement (alone tx_A) (Fulfilled (mined "0xA" 1))))
    !! future (alone tx_A) = Some (Resolved (mined "0xA" 1)).
Proof.
  split; [reflexivity | ].
  exact (outcome_is_final (alone tx_A) (Fulfilled (mined "0xA" 1))
           [OpDeliver 0 (Failed Nullish); OpSet []; OpAdd tx_B wallet;
            OpDeliver 1 (Fulfilled (mined "0xB" 0))] eq_refl).
Defined.

Lemma completed_initial : completed initial.
Proof. intros p wt Hp. discriminate Hp. Qed.

Lemma completed_step w op : consistent w -> completed w -> completed (step w op).
Proof.
  intros Hw Hdone q wq.
  assert (forall c, is_pending_cell (Some c) = false -> c <> Pending) as Hnp.
  { intros [ | | ]; simpl; congruence. }
  destruct op as [tx signer | txs | p o]; unfold step.
  - unfold exec. rewrite add_unfold. simpl. intros Hq Hs.
    apply lookup_app_Some in Hq as [Hq | [_ Hq]].
    + rewrite lookup_app_l
        by (rewrite (cons_length _ Hw); eapply lookup_lt_Some; eauto).
      eauto.
    + apply list_lookup_singleton_Some in Hq as [_ <-]. discriminate Hs.
  - rewrite set_unfold. simpl. apply Hdone.
  - destruct (watches w !! p) as [wt | ] eqn:Hp.
    2: { rewrite deliver_missing by done. apply Hdone. }
    destruct (settled wt) eqn:Hs.
    { erewrite deliver_settled by eauto. apply Hdone. }
    rewrite (deliver_unfold w p o wt Hp Hs). simpl.
    rewrite (cons_owner _ Hw _ _ Hp).
    destruct (decide (q = p)) as [-> | Hne].
    + intros _ _. unfold settle_cell.
      rewrite (cons_pending _ Hw _ _ Hp Hs).
      rewrite list_lookup_insert_eq
        by (eapply lookup_lt_Some, (cons_pending _ Hw _ _ Hp Hs)).
      pose proof (verdict_not_pending o) as Hv.
      destruct (verdict o); simpl; congruence.
    + rewrite list_lookup_alter_ne by congruence.
      rewrite settle_cell_other by exact Hne. apply Hdone.
Qed.

Lemma completed_run ops : completed (run ops initial).
Proof.
  assert (forall w, consistent w -> completed w ->
            consistent (run ops w) /\ completed (run ops w)) as Hgen.
  { induction ops as [ | op ops IH]; intros w Hw Hdone; [auto | ].
    apply IH; [apply consistent_step, Hw | apply completed_step; assumption]. }
  apply Hgen; [apply consistent_initial | apply completed_initial].
Qed.

(** X7: in every run, the future of a submission is pending exactly as long
    as the provider has not settled its watch: no future is completed before
    the settlement, and none is left pending by it. *)
Theorem future_pending_iff_unsettled (ops : list Op) (p : nat) (wt : Watch) :
  watches (run ops initial) !! p = Some wt ->
  deferred (captured wt) = p /\
  is_pending_cell (deferreds (run ops initial) !! p) = negb (settled wt).
Proof.
  intros Hp. pose proof (consistent_run ops) as Hw.
  split; [exact (cons_owner _ Hw _ _ Hp) | ].
  destruct (settled wt) eqn:Hs; simpl.
  - exact (completed_run ops _ _ Hp Hs).
  - rewrite (cons_pending _ Hw _ _ Hp Hs). reflexivity.
Qed.

Lemma future_pending_iff_unsettled_witness :
  is_pending_cell
    (deferreds (run [OpAdd tx_A wallet; OpAdd tx_B wallet;
                     OpDeliver 0 (Failed Nullish)] initial) !! 0) = false /\
  is_pending_cell
    (deferreds (run [OpAdd tx_A wallet; OpAdd tx_B wallet;
                     OpDeliver 0 (Failed Nullish)] initial) !! 1) = true.
Proof.
  split.
  - exact (proj2 (future_pending_iff_unsettled
      [OpAdd tx_A wallet; OpAdd tx_B wallet; OpDeliver 0 (Failed Nullish)] 0
      (mkWatch (mkRequest 0 "0xA" 1 300000) (mkClosure 0 0) true) eq_refl)).
  - exact (proj2 (future_pending_iff_unsettled
      [OpAdd tx_A wallet; OpAdd tx_B wallet; OpDeliver 0 (Failed Nullish)] 1
      (mkWatch (mkRequest 0 "0xB" 1 300000) (mkClosure 1 1) false) eq_refl)).
Defined.

(** ** Subscribers *)

Lemma publications_app t1 t2 :
  publications (t1 ++ t2) = publications t1 ++ publications t2.
Proof. apply List.flat_map_app. Qed.

Lemma last_published_same t evs :
  publications evs = [] -> last_published (t ++ evs) = last_published t.
Proof.
  intros He. unfold last_published.
  rewrite publications_app, He, app_nil_r. reflexivity.
Qed.

Lemma last_published_new t evs v :
  last (publications evs) = Some v -> last_published (t ++ evs) = v.
Proof.
  intros He. unfold last_published.
  rewrite publications_app, last_app, He. reflexivity.
Qed.

Lemma synced_step w op :
  last_published (trace w) = pending w ->
  last_published (trace (step w op)) = pending (step w op).
Proof.
  intros Hsync. destruct op as [tx signer | txs | p o]; unfold step.
  - unfold exec. rewrite add_unfold. simpl.
    apply last_published_new. reflexivity.
  - rewrite set_unfold. simpl. apply last_published_new. reflexivity.
  - destruct (watches w !! p) as [wt | ] eqn:Hp.
    2: { rewrite deliver_missing; done. }
    destruct (settled wt) eqn:Hs.
    { erewrite deliver_settled; eauto. }
    rewrite (deliver_unfold w p o wt Hp Hs). simpl.
    destruct o as [r | e]; simpl.
    + apply last_published_new. destruct (status_is_1 r); reflexivity.
    + rewrite last_published_same by reflexivity. exact Hsync.
Qed.

(** X8: subscribers are never out of date. In every run the value last
    published to them (the initial empty array if none was) is the value the
    store holds: [add] and the handlers change the store through [update]
    only. *)
Theorem subscribers_in_sync (ops : list Op) :
  last_published (trace (run ops initial)) = pending (run ops initial).
Proof.
  assert (forall w, last_published (trace w) = pending w ->
            last_published (trace (run ops w)) = pending (run ops w)) as Hgen.
  { induction ops as [ | op ops IH]; intros w Hw; [exact Hw | ].
    apply IH, synced_step, Hw. }
  apply Hgen. reflexivity.
Qed.

(** ** Where the entries come from *)

Lemma pending_step_subseteq w op :
  pending (step w op) ⊆ pending w ++ handed_in [op].
Proof.
  destruct op as [tx signer | txs | p o]; unfold step, handed_in.
  - unfold exec. rewrite add_unfold. simpl. reflexivity.
  - rewrite set_unfold. simpl. rewrite app_nil_r.
    apply list_subseteq_app_r. reflexivity.
  - simpl flat_map. rewrite app_nil_r.
    apply sublist_subseteq, settlement_keeps_order_aux.
Qed.

Lemma pending_run_subseteq ops w :
  pending (run ops w) ⊆ pending w ++ handed_in ops.
Proof.
  revert w. induction ops as [ | op ops IH]; intros w.
  - simpl. rewrite app_nil_r. reflexivity.
  - change (run (op :: ops) w) with (run ops (step w op)).
    replace (handed_in (op :: ops)) with (handed_in [op] ++ handed_in ops)
      by (unfold handed_in; simpl; rewrite app_nil_r; reflexivity).
    intros x Hx. apply IH in Hx. apply elem_of_app in Hx as [Hx | Hx].
    + apply pending_step_subseteq in Hx. rewrite app_assoc.
      apply elem_of_app. left. exact Hx.
    + rewrite app_assoc. apply elem_of_app. right. exact Hx.
Qed.

(** X9: the store never makes up an entry. In every run, each transaction in
    the pending collection was handed in by a caller, through [add] or in an
    array given to [set]. *)
Theorem entries_were_handed_in (ops : list Op) :
  pending (run ops initial) ⊆ handed_in ops.
Proof. apply (pending_run_subseteq ops initial). Qed.


(** ** Submissions whose earlier entries are left alone *)

Lemma guarded_length a idx kept w :
  guarded a idx kept w -> S idx <= length (pending w).
Proof.
  intros (Htake & Hlen & _). rewrite <- Htake, length_take in Hlen. lia.
Qed.

Lemma guarded_step a idx kept w op :
  guarded a idx kept w -> later_only a op = true ->
  guarded a idx kept (step w op).
Proof.
  intros Hg Hop. pose proof (guarded_length _ _ _ _ Hg) as Hlong.
  destruct Hg as (Htake & Hlen & Hlater).
  destruct op as [tx signer | txs | p o]; unfold step.
  - unfold exec. rewrite add_unfold. split; [ | split]; simpl.
    + rewrite take_app_le by exact Hlong. exact Htake.
    + exact Hlen.
    + intros q wq Hq Hw. apply lookup_app_Some in Hw as [Hw | [_ Hw]].
      * eauto.
      * apply list_lookup_singleton_Some in Hw as [_ <-]. simpl. lia.
  - discriminate Hop.
  - split; [ | split].
    + destruct (deliver_pending_cases w p o) as [-> | (wt & Hp & _ & Hdel)];
        [exact Htake | ].
      destruct o as [r | e].
      * simpl in Hop. apply Nat.ltb_lt in Hop.
        pose proof (Hlater p wt Hop Hp) as Hidx.
        rewrite Hdel, delete_take_drop.
        rewrite take_app_le by (rewrite length_take; lia).
        rewrite take_take, Nat.min_l by lia. exact Htake.
      * destruct (watches w !! p) as [wp | ] eqn:Hwp; [ | discriminate Hp].
        destruct (settled wp) eqn:Hs.
        { erewrite deliver_settled by eauto. exact Htake. }
        rewrite (deliver_unfold w p _ wp Hwp Hs). exact Htake.
    + exact Hlen.
    + intros q wq Hq Hw.
      apply deliver_watch_inv in Hw as (wt & Hw & ->). eauto.
Qed.

Lemma guarded_run a idx kept ops w :
  guarded a idx kept w -> forallb (later_only a) ops = true ->
  guarded a idx kept (run ops w).
Proof.
  revert w. induction ops as [ | op ops IH]; intros w Hg Hops; [exact Hg | ].
  simpl in Hops. apply andb_true_iff in Hops as [Hop Hops].
  apply IH; [ | exact Hops]. apply guarded_step; assumption.
Qed.

Lemma guarded_after_call s :
  guarded (watch_of s) (recorded_index s)
    (pending (at_call s) ++ [sub_tx s]) (after_call s).
Proof.
  unfold after_call, exec. rewrite add_unfold. split; [ | split]; simpl.
  - apply take_ge. rewrite length_app. simpl. unfold recorded_index. lia.
  - rewrite length_app. simpl. unfold recorded_index. lia.
  - intros q wq Hq Hw. apply lookup_lt_Some in Hw.
    rewrite length_app in Hw. simpl in Hw. unfold watch_of in Hq. lia.
Qed.

Lemma guarded_entry a idx kept w tx before_it :
  guarded a idx kept w -> kept = before_it ++ [tx] ->
  pending w = before_it ++ [tx] ++ drop (S idx) (pending w) /\
  take idx (pending w) = before_it /\
  pending w !! idx = Some tx.
Proof.
  intros (Htake & Hlen & _) ->.
  rewrite length_app in Hlen. simpl in Hlen.
  assert (length before_it = idx) as Hidx by lia.
  assert (pending w = (before_it ++ [tx]) ++ drop (S idx) (pending w)) as Hsplit.
  { rewrite <- Htake. symmetry. apply take_drop. }
  split; [rewrite <- app_assoc in Hsplit; exact Hsplit | ]. split.
  - rewrite Hsplit at 1. rewrite <- app_assoc.
    apply take_app_length'. lia.
  - rewrite Hsplit, <- app_assoc.
    rewrite lookup_app_r by lia. rewrite Hidx, Nat.sub_diag. reflexivity.
Qed.

(** X3: removal by the saved index is right as long as the entries before
    the submitted one are left alone. If, between the call and its receipt,
    there are only further calls of [add], rejections of watches, and
    receipts for transactions submitted later, then the submitted
    transaction is still at its saved index and the receipt removes exactly
    that entry, keeping everything before and after it. *)
Theorem later_traffic_is_harmless (s : Submission) (r : TransactionReceipt) :
  unsettled s = true ->
  forallb (later_only (watch_of s)) (between s) = true ->
  exists rest,
    pending (at_settlement s) = pending (at_call s) ++ [sub_tx s] ++ rest /\
    pending (settlement s (Fulfilled r)) = pending (at_call s) ++ rest.
Proof.
  intros Hu Hops.
  assert (guarded (watch_of s) (recorded_index s)
            (pending (at_call s) ++ [sub_tx s]) (at_settlement s)) as Hg.
  { apply guarded_run; [apply guarded_after_call | exact Hops]. }
  pose proof (guarded_length _ _ _ _ Hg) as Hlong.
  destruct (guarded_entry _ _ _ _ _ _ Hg eq_refl) as (Hsplit & Hbefore & _).
  exists (drop (S (recorded_index s)) (pending (at_settlement s))).
  split; [exact Hsplit | ].
  destruct (confirmation_in_range s r Hu) as (Hdel & _); [lia | ].
  rewrite Hdel, delete_take_drop, Hbefore. reflexivity.
Qed.

Lemma later_traffic_is_harmless_witness :
  unsettled
    (mkSubmission [OpAdd tx_A wallet] tx_B wallet
       [OpAdd tx_C wallet; OpDeliver 2 (Fulfilled (mined "0xC" 1));
        OpDeliver 0 (Failed Nullish)]) = true /\
  exists rest,
    pending
      (settlement
         (mkSubmission [OpAdd tx_A wallet] tx_B wallet
            [OpAdd tx_C wallet; OpDeliver 2 (Fulfilled (mined "0xC" 1));
             OpDeliver 0 (Failed Nullish)])
         (Fulfilled (mined "0xB" 1))) = [tx_A] ++ rest.
Proof.
  split; [reflexivity | ].
  destruct (later_traffic_is_harmless
              (mkSubmission [OpAdd tx_A wallet] tx_B wallet
                 [OpAdd tx_C wallet; OpDeliver 2 (Fulfilled (mined "0xC" 1));
                  OpDeliver 0 (Failed Nullish)])
              (mined "0xB" 1) eq_refl eq_refl) as (rest & _ & Hafter).
  exists rest. exact Hafter.
Defined.

Lemma deliver_settles w p o wt :
  watches w !! p = Some wt ->
  exists wt', watches (exec (deliver p o) w) !! p = Some wt' /\
              settled wt' = true.
Proof.
  intros Hp. destruct (settled wt) eqn:Hs.
  - erewrite deliver_settled by eauto. eauto.
  - rewrite (deliver_unfold w p o wt Hp Hs). simpl.
    rewrite list_lookup_alter_eq, Hp. simpl. eauto.
Qed.

Lemma guarded_settled_run a idx kept ops w wt :
  guarded a idx kept w ->
  watches w !! a = Some wt -> settled wt = true ->
  forallb (later_or_self a) ops = true ->
  guarded a idx kept (run ops w).
Proof.
  revert w wt. induction ops as [ | op ops IH]; intros w wt Hg Ha Hs Hops;
    [exact Hg | ].
  simpl in Hops. apply andb_true_iff in Hops as [Hop Hops].
  change (run (op :: ops) w) with (run ops (step w op)).
  destruct (watch_step w op a wt Ha) as (wt' & Ha' & _ & _ & Hs').
  apply (IH _ wt'); [ | exact Ha' | auto | exact Hops].
  unfold later_or_self in Hop. apply orb_true_iff in Hop as [Hop | Hop].
  - apply guarded_step; assumption.
  - destruct op as [tx signer | txs | p o]; try discriminate Hop.
    apply Nat.eqb_eq in Hop. subst p. unfold step.
    erewrite deliver_settled by eauto. exact Hg.
Qed.

(** X10: a submission whose watch was rejected keeps its entry. If the
    entries before it are left alone (only calls of [add], rejections, and
    receipts for later submissions happen), then after the rejection the
    submitted transaction stays at its saved index, whatever the provider
    still delivers for that watch: nothing in the store removes it. *)
Theorem rejected_entry_stays (s : Submission) (e : JsError) (after : list Op) :
  forallb (later_only (watch_of s)) (between s) = true ->
  forallb (later_or_self (watch_of s)) after = true ->
  pending (run after (settlement s (Failed e))) !! recorded_index s =
    Some (sub_tx s).
Proof.
  intros Hbetween Hafter.
  assert (guarded (watch_of s) (recorded_index s)
            (pending (at_call s) ++ [sub_tx s]) (at_settlement s)) as Hg.
  { apply guarded_run; [apply guarded_after_call | exact Hbetween]. }
  destruct (watch_at_settlement s) as (wt & Hwt & _).
  destruct (deliver_settles _ _ (Failed e) _ Hwt) as (wt' & Hwt' & Hs').
  assert (guarded (watch_of s) (recorded_index s)
            (pending (at_call s) ++ [sub_tx s])
            (run after (settlement s (Failed e)))) as Hg'.
  { apply (guarded_settled_run _ _ _ _ _ wt'); try assumption.
    apply (guarded_step _ _ _ _ (OpDeliver (watch_of s) (Failed e)));
      [exact Hg | reflexivity]. }
  apply (guarded_entry _ _ _ _ _ _ Hg' eq_refl).
Qed.

Lemma rejected_entry_stays_witness :
  pending
    (run [OpAdd tx_C wallet; OpDeliver 1 (Fulfilled (mined "0xB" 1));
          OpDeliver 2 (Fulfilled (mined "0xC" 1))]
       (settlement (mkSubmission [OpAdd tx_A wallet] tx_B wallet [])
          (Failed (Thrown (Some "TIMEOUT") "timeout"))))
    !! 1 = Some tx_B.
Proof.
  exact (rejected_entry_stays
           (mkSubmission [OpAdd tx_A wallet] tx_B wallet [])
           (Thrown (Some "TIMEOUT") "timeout")
           [OpAdd tx_C wallet; OpDeliver 1 (Fulfilled (mined "0xB" 1));
            OpDeliver 2 (Fulfilled (mined "0xC" 1))] eq_refl eq_refl).
Defined.

(** ** The order of receipts *)

Lemma deliver_receipt_unfold w p r wt :
  watches w !! p = Some wt -> settled wt = false ->
  pending (exec (deliver p (Fulfilled r)) w) =
    delete (idxAppendedTransaction (captured wt)) (pending w) /\
  watches (exec (deliver p (Fulfilled r)) w) = alter settle p (watches w).
Proof.
  intros Hp Hs. rewrite (deliver_unfold w p _ wt Hp Hs). simpl.
  split; [apply splice_one_delete | reflexivity].
Qed.

Lemma delete_middle {A} (l : list A) (x : A) (k : list A) :
  delete (length l) (l ++ x :: k) = l ++ k.
Proof. induction l as [ | y l IH]; simpl; [reflexivity | f_equal; exact IH]. Qed.

Lemma delete_beyond {A} (l : list A) (i : nat) :
  length l <= i -> delete i l = l.
Proof.
  intros Hi. rewrite <- splice_one_delete. apply splice_out_of_range, Hi.
Qed.

(** X11: for two transactions submitted one after the other, in any state of
    the store, the order of their receipts decides what is left. Receipts in
    the reverse order of submission give back the collection as it was;
    receipts in the order of submission remove the first transaction and
    leave the second one in the collection. *)
Theorem order_of_receipts_matters (w : World) (tx1 tx2 : Transaction)
    (signer1 signer2 : Signer) (r1 r2 : TransactionReceipt) :
  let p1 := length (watches w) in
  let p2 := S (length (watches w)) in
  let both := exec (add tx2 signer2) (exec (add tx1 signer1) w) in
  pending both = pending w ++ [tx1; tx2] /\
  pending (exec (deliver p1 (Fulfilled r1))
             (exec (deliver p2 (Fulfilled r2)) both)) = pending w /\
  pending (exec (deliver p2 (Fulfilled r2))
             (exec (deliver p1 (Fulfilled r1)) both)) = pending w ++ [tx2].
Proof.
  intros p1 p2 both.
  set (n := length (pending w)).
  set (wt1 := mkWatch (mkRequest (provider signer1) (hash tx1) 1 300000)
                (mkClosure n (length (deferreds w))) false).
  set (wt2 := mkWatch (mkRequest (provider signer2) (hash tx2) 1 300000)
                (mkClosure (S n) (S (length (deferreds w)))) false).
  assert (pending both = pending w ++ [tx1; tx2] /\
          watches both = watches w ++ [wt1; wt2]) as [Hpend Hwatch].
  { unfold both, exec. rewrite !add_unfold. simpl.
    rewrite <- !app_assoc. simpl. split; [reflexivity | ].
    unfold wt1, wt2, n. rewrite !length_app. simpl.
    rewrite !Nat.add_1_r. reflexivity. }
  assert (watches both !! p1 = Some wt1) as H1.
  { rewrite Hwatch. unfold p1. rewrite lookup_app_r by lia.
    rewrite Nat.sub_diag. reflexivity. }
  assert (watches both !! p2 = Some wt2) as H2.
  { rewrite Hwatch. unfold p2. rewrite lookup_app_r by lia.
    replace (S (length (watches w)) - length (watches w)) with 1 by lia.
    reflexivity. }
  split; [exact Hpend | ]. split.
  - destruct (deliver_receipt_unfold both p2 r2 wt2 H2 eq_refl) as [Hp Hw].
    assert (watches (exec (deliver p2 (Fulfilled r2)) both) !! p1 = Some wt1)
      as H1'.
    { rewrite Hw, list_lookup_alter_ne by (unfold p1, p2; lia). exact H1. }
    destruct (deliver_receipt_unfold _ p1 r1 wt1 H1' eq_refl) as [Hp' _].
    rewrite Hp', Hp, Hpend. simpl.
    replace (pending w ++ [tx1; tx2]) with ((pending w ++ [tx1]) ++ [tx2])
      by (rewrite <- app_assoc; reflexivity).
    replace (S n) with (length (pending w ++ [tx1]))
      by (rewrite length_app; simpl; unfold n; lia).
    rewrite delete_middle, app_nil_r. unfold n.
    rewrite delete_middle. apply app_nil_r.
  - destruct (deliver_receipt_unfold both p1 r1 wt1 H1 eq_refl) as [Hp Hw].
    assert (watches (exec (deliver p1 (Fulfilled r1)) both) !! p2 = Some wt2)
      as H2'.
    { rewrite Hw, list_lookup_alter_ne by (unfold p1, p2; lia). exact H2. }
    destruct (deliver_receipt_unfold _ p2 r2 wt2 H2' eq_refl) as [Hp' _].
    rewrite Hp', Hp, Hpend. simpl. unfold n. rewrite delete_middle.
    apply delete_beyond. rewrite length_app. simpl. lia.
Qed.
